(** * nearme_contract: the location-proof program (Anchor, Solana)

    Shallow embedding of [programs/nearme_contract/src/lib.rs]:
    the two instructions [create_location_proof] and
    [close_location_proof], each run the way Anchor runs them:
    first the generated [try_accounts] of the accounts struct
    ([CreateLocationProof] / [CloseLocationProof], with their
    [init], [seeds], [bump] and [close] constraints), then the handler
    body, then the exit code of the constraints.  A failing instruction
    is rolled back whole by the runtime, so it yields an error and no
    new state.

    Accounts of the program are a finite map from address to the
    deserialized [LocationProof].  A program-derived address is the
    SHA-256 of [seeds ++ [bump] ++ program_id ++ "ProgramDerivedAddress"];
    the constant suffix and the hash are modelled by the preimage bytes
    [seeds ++ [bump]] themselves (collision resistance of the hash). *)

From Stdlib Require Import ZArith List Ascii.
From stdpp Require Import base gmap strings.
Import ListNotations.
Open Scope Z_scope.

(** ** Data *)

(** [MAX_MERCHANT_ID_LEN: usize = 32] *)
Definition MAX_MERCHANT_ID_LEN : nat := 32.

(** Solana's [MAX_SEED_LEN]: a seed of a program address has at most
    32 bytes. *)
Definition MAX_SEED_LEN : nat := 32.

(** A public key (signer identity); only compared, never inspected. *)
Definition Pubkey := Z.

(** [#[account] pub struct LocationProof] *)
Record LocationProof := mkLocationProof {
  lat : Z;
  lng : Z;
  verified_at : Z;
  bump : Byte.byte
}.

(** [#[event] pub struct LocationVerifiedEvent] *)
Record LocationVerifiedEvent := mkLocationVerifiedEvent {
  ev_lat : Z;
  ev_lng : Z;
  timestamp : Z
}.

(** [#[error_code] pub enum ErrorCode] *)
Inductive ErrorCode := MerchantIdTooLong | InvalidLatitude | InvalidLongitude.

(** Errors an instruction can end with: the program's own codes, the
    address derivation's seed-length error, the system program's
    "account already in use" (raised by [init] on an existing account),
    and Anchor's [AccountNotInitialized] and [ConstraintSeeds]. *)
Inductive Error :=
  | Custom (c : ErrorCode)
  | MaxSeedLengthExceeded
  | AccountAlreadyInUse
  | AccountNotInitialized
  | ConstraintSeeds.

Inductive result (A : Type) :=
  | Ok (a : A)
  | Err (e : Error).
Arguments Ok {A} a.
Arguments Err {A} e.

Definition bind {A B} (r : result A) (k : A -> result B) : result B :=
  match r with Ok a => k a | Err e => Err e end.

Notation "'let*' p := r 'in' k" := (bind r (fun x => match x with p => k end))
  (at level 200, p pattern, r at level 100, k at level 200).

(** [require!(cond, err)] *)
Definition require (b : bool) (e : ErrorCode) : result unit :=
  if b then Ok tt else Err (Custom e).

(** Program accounts holding a [LocationProof], by address. *)
Notation Store := (gmap string LocationProof).

(** ** Program-derived addresses *)

Definition byte_string (b : Byte.byte) : string := String (ascii_of_byte b) EmptyString.

(** The seed [b"proof"]. *)
Definition proof_seed : string := "proof".

Definition seeds_ok (seeds : list string) : bool :=
  forallb (fun s => Nat.leb (String.length s) MAX_SEED_LEN) seeds.

(** [Pubkey::create_program_address(seeds ++ [[bump]], program_id)]. *)
Definition create_program_address (seeds : list string) (b : Byte.byte) : option string :=
  if seeds_ok seeds
  then Some (String.append (String.concat "" seeds) (byte_string b))
  else None.

Section Derivation.

(** The bump that [find_program_address] settles on for a given
    concatenation of seeds (the first bump from 255 down whose address is
    off the curve); the curve test itself is not modelled. *)
Variable find_bump : string -> Byte.byte.

(** [Pubkey::find_program_address(seeds, program_id)]: rejects a seed
    longer than [MAX_SEED_LEN] (the syscall fails), otherwise the address
    with the canonical bump. *)
Definition find_program_address (seeds : list string) : result (string * Byte.byte) :=
  let b := find_bump (String.concat "" seeds) in
  match create_program_address seeds b with
  | Some k => Ok (k, b)
  | None => Err MaxSeedLengthExceeded
  end.

(** ** [create_location_proof] *)

(** Accounts validation of [CreateLocationProof]:
    [seeds = [b"proof", merchant_id.as_bytes()], bump] derives the address
    (the client passes that address as [proof]); [init] creates the
    account through the system program, which refuses an address already
    in use. *)
Definition CreateLocationProof_try_accounts (s : Store) (merchant_id : string)
  : result (string * Byte.byte) :=
  let* (key, b) := find_program_address [proof_seed; merchant_id] in
  match s !! key with
  | Some _ => Err AccountAlreadyInUse
  | None => Ok (key, b)
  end.

(** The handler body: the three [require!]s, then the fields of the
    freshly initialised [proof] account, then [emit!].  [now] is
    [Clock::get()?.unix_timestamp], [bump] is [ctx.bumps.proof]. *)
Definition create_location_proof (bump_ : Byte.byte) (now : Z)
    (lat_ lng_ : Z) (merchant_id : string)
  : result (LocationProof * list LocationVerifiedEvent) :=
  let* tt := require (Nat.leb (String.length merchant_id) MAX_MERCHANT_ID_LEN) MerchantIdTooLong in
  let* tt := require ((-90000000 <=? lat_) && (lat_ <=? 90000000)) InvalidLatitude in
  let* tt := require ((-180000000 <=? lng_) && (lng_ <=? 180000000)) InvalidLongitude in
  let proof := {| lat := lat_; lng := lng_; verified_at := now; bump := bump_ |} in
  Ok (proof, [ {| ev_lat := lat_; ev_lng := lng_; timestamp := now |} ]).

(** The whole instruction.  [payer] signs and pays the rent; nothing of it
    is stored in the account. *)
Definition process_create (s : Store) (now : Z) (payer : Pubkey)
    (lat_ lng_ : Z) (merchant_id : string)
  : result (Store * list LocationVerifiedEvent) :=
  let* (key, b) := CreateLocationProof_try_accounts s merchant_id in
  let* (proof, events) := create_location_proof b now lat_ lng_ merchant_id in
  Ok (<[key := proof]> s, events).

End Derivation.

(** ** [close_location_proof] *)

(** Accounts validation of [CloseLocationProof]: [proof] is deserialized
    as an [Account<LocationProof>]; the store holds only the accounts of
    this program, and an address outside it is taken to be an account that
    does not exist ([AccountNotInitialized]), not one owned by another
    program; [seeds = [b"proof"], bump = proof.bump]
    re-derives the address from the seed [b"proof"] and the stored bump
    and compares it with the passed account.  [authority] is a [Signer]
    and is checked against nothing else. *)
Definition CloseLocationProof_try_accounts (s : Store) (proof_key : string)
  : result LocationProof :=
  match s !! proof_key with
  | None => Err AccountNotInitialized
  | Some p =>
      match create_program_address [proof_seed] (bump p) with
      | Some k => if String.eqb k proof_key then Ok p else Err ConstraintSeeds
      | None => Err ConstraintSeeds
      end
  end.

(** The handler body: only [msg!]. *)
Definition close_location_proof : result unit := Ok tt.

(** The whole instruction; [close = authority] runs at exit: the lamports go
    to [authority] and the account is gone. *)
Definition process_close (s : Store) (proof_key : string) (authority : Pubkey)
  : result (Store * list LocationVerifiedEvent) :=
  let* p := CloseLocationProof_try_accounts s proof_key in
  let* tt := close_location_proof in
  Ok (delete proof_key s, []).

(** ** Transactions *)

(** The runtime's all-or-nothing rule: the state after an instruction,
    and the events it leaves in the ledger. *)
Definition tx_state {A} (s : Store) (r : result (Store * A)) : Store :=
  match r with Ok (s', _) => s' | Err _ => s end.

Definition tx_events (r : result (Store * list LocationVerifiedEvent))
  : list LocationVerifiedEvent :=
  match r with Ok (_, evs) => evs | Err _ => [] end.

Definition is_ok {A} (r : result A) : bool :=
  match r with Ok _ => true | Err _ => false end.

Section Reach.
Variable find_bump : string -> Byte.byte.

(** One successful instruction (a failing one leaves the state as it is). *)
Inductive step : Store -> Store -> Prop :=
  | step_create s s' evs now payer la ln m :
      process_create find_bump s now payer la ln m = Ok (s', evs) -> step s s'
  | step_close s s' evs k authority :
      process_close s k authority = Ok (s', evs) -> step s s'.

Inductive reachable : Store -> Prop :=
  | reachable_init : reachable ∅
  | reachable_step s s' : reachable s -> step s s' -> reachable s'.

End Reach.

(** The address the client passes as [proof] for a merchant, as
    [CreateLocationProof] derives it. *)
Definition proof_address (find_bump : string -> Byte.byte) (merchant_id : string) : string :=
  String.append (String.append proof_seed merchant_id)
    (byte_string (find_bump (String.append proof_seed merchant_id))).

Definition coords_ok (la ln : Z) : Prop :=
  -90000000 <= la <= 90000000 /\ -180000000 <= ln <= 180000000.

Definition in_bounds (p : LocationProof) : Prop := coords_ok (lat p) (lng p).


(** A stored proof sits at the address [CreateLocationProof] derives for
    some merchant id, with the bump of that derivation. *)
Definition record_at_derived_address (fb : string -> Byte.byte) (k : string)
    (p : LocationProof) : Prop :=
  exists m, (String.length m <= MAX_SEED_LEN)%nat /\ k = proof_address fb m /\
            bump p = fb (String.append proof_seed m).

(** Why a Create failed, read off the order of its checks. *)
Definition create_error_cause (fb : string -> Byte.byte) (s : Store) (la ln : Z)
    (m : string) (e : Error) : Prop :=
  (e = MaxSeedLengthExceeded /\ (MAX_SEED_LEN < String.length m)%nat) \/
  (e = AccountAlreadyInUse /\ (String.length m <= MAX_SEED_LEN)%nat /\
     s !! proof_address fb m <> None) \/
  (e = Custom InvalidLatitude /\ (String.length m <= MAX_SEED_LEN)%nat /\
     s !! proof_address fb m = None /\ ~ (-90000000 <= la <= 90000000)) \/
  (e = Custom InvalidLongitude /\ (String.length m <= MAX_SEED_LEN)%nat /\
     s !! proof_address fb m = None /\ -90000000 <= la <= 90000000 /\
     ~ (-180000000 <= ln <= 180000000)).

(** ** Account data ([#[account]]: discriminator, then Borsh) *)

(** [space = 8 + 8 + 8 + 8 + 1] of [CreateLocationProof]. *)
Definition LocationProof_space : nat := 8 + 8 + 8 + 8 + 1.

(** Bytes are values in [0, 256). [le_bytes n x]: the [n] low bytes of the
    two's complement of [x], least significant first. *)
Fixpoint le_bytes (n : nat) (x : Z) : list Z :=
  match n with
  | O => []
  | S n' => Z.land x 255 :: le_bytes n' (Z.shiftr x 8)
  end.

Fixpoint le_value (l : list Z) : Z :=
  match l with
  | [] => 0
  | b :: l' => b + 256 * le_value l'
  end.

(** Borsh [i64]: 8 bytes little-endian, two's complement. *)
Definition i64_to_le (x : Z) : list Z := le_bytes 8 x.

Definition i64_from_le (l : list Z) : Z :=
  let v := le_value l in if v <? 2 ^ 63 then v else v - 2 ^ 64.

Definition is_i64 (x : Z) : Prop := - 2 ^ 63 <= x < 2 ^ 63.

(** Failures of [Account::try_deserialize]. *)
Inductive DeserializeError :=
  | AccountDiscriminatorNotFound
  | AccountDiscriminatorMismatch
  | AccountDidNotDeserialize.

Section AccountData.

(** The 8-byte account discriminator of [LocationProof] (the first bytes of
    the SHA-256 of ["account:LocationProof"]). *)
Variable discriminator : list Z.

(** [AccountSerialize::try_serialize]: discriminator, then the fields in
    declaration order. *)
Definition serialize_LocationProof (p : LocationProof) : list Z :=
  discriminator ++ i64_to_le (lat p) ++ i64_to_le (lng p) ++ i64_to_le (verified_at p)
    ++ [Z.of_N (Byte.to_N (bump p))].

(** Borsh's reader for [i64]: the next 8 bytes, or a failure when fewer
    are left. *)
Definition read_i64 (d : list Z) : option (Z * list Z) :=
  if Nat.ltb (length d) 8 then None else Some (i64_from_le (firstn 8 d), skipn 8 d).

(** Borsh's reader for [u8]. *)
Definition read_u8 (d : list Z) : option (Byte.byte * list Z) :=
  match d with
  | [] => None
  | b :: d' => match Byte.of_N (Z.to_N b) with Some x => Some (x, d') | None => None end
  end.

(** [AccountDeserialize::try_deserialize]: check the discriminator, then
    read the fields in declaration order from the bytes after it. *)
Definition deserialize_LocationProof (data : list Z) : DeserializeError + LocationProof :=
  if Nat.ltb (length data) 8 then inl AccountDiscriminatorNotFound
  else if negb (bool_decide (firstn 8 data = discriminator)) then inl AccountDiscriminatorMismatch
  else
    match read_i64 (skipn 8 data) with
    | None => inl AccountDidNotDeserialize
    | Some (la, d1) =>
    match read_i64 d1 with
    | None => inl AccountDidNotDeserialize
    | Some (ln, d2) =>
    match read_i64 d2 with
    | None => inl AccountDidNotDeserialize
    | Some (ts, d3) =>
    match read_u8 d3 with
    | None => inl AccountDidNotDeserialize
    | Some (b, _) => inr {| lat := la; lng := ln; verified_at := ts; bump := b |}
    end end end end.

End AccountData.

(** ** Lemmas about the embedding *)

Lemma length_string_append (a b : string) :
  String.length (String.append a b) = (String.length a + String.length b)%nat.
Proof. induction a as [|c a IH]; simpl; [reflexivity | rewrite IH; reflexivity]. Qed.

Lemma find_proof_address fb m :
  (String.length m <= MAX_SEED_LEN)%nat ->
  find_program_address fb [proof_seed; m]
  = Ok (proof_address fb m, fb (String.append proof_seed m)).
Proof.
  intros H. apply Nat.leb_le in H.
  unfold find_program_address, create_program_address, seeds_ok.
  cbn [forallb]. rewrite H. reflexivity.
Qed.

Lemma find_proof_address_long fb m :
  (MAX_SEED_LEN < String.length m)%nat ->
  find_program_address fb [proof_seed; m] = Err MaxSeedLengthExceeded.
Proof.
  intros H. apply Nat.leb_gt in H.
  unfold find_program_address, create_program_address, seeds_ok.
  cbn [forallb]. rewrite H. reflexivity.
Qed.

Lemma create_try_accounts_eq fb s m :
  (String.length m <= MAX_SEED_LEN)%nat ->
  CreateLocationProof_try_accounts fb s m
  = match s !! proof_address fb m with
    | Some _ => Err AccountAlreadyInUse
    | None => Ok (proof_address fb m, fb (String.append proof_seed m))
    end.
Proof.
  intros H. unfold CreateLocationProof_try_accounts.
  rewrite find_proof_address by exact H. reflexivity.
Qed.

Lemma create_try_accounts_ok fb s m key b :
  CreateLocationProof_try_accounts fb s m = Ok (key, b) ->
  (String.length m <= MAX_SEED_LEN)%nat /\ key = proof_address fb m /\
  b = fb (String.append proof_seed m) /\ s !! key = None.
Proof.
  destruct (Nat.le_gt_cases (String.length m) MAX_SEED_LEN) as [Hm | Hm].
  - rewrite create_try_accounts_eq by exact Hm.
    destruct (s !! proof_address fb m) eqn:Hs; [discriminate |].
    intros Heq. injection Heq as <- <-. auto.
  - unfold CreateLocationProof_try_accounts.
    rewrite find_proof_address_long by exact Hm. discriminate.
Qed.

Ltac require_cases :=
  repeat match goal with
  | |- context [ if ?c then _ else _ ] =>
      let E := fresh "E" in destruct c eqn:E; cbn
  end.

Lemma create_location_proof_ok b now la ln m :
  (String.length m <= MAX_MERCHANT_ID_LEN)%nat -> coords_ok la ln ->
  create_location_proof b now la ln m
  = Ok ({| lat := la; lng := ln; verified_at := now; bump := b |},
        [ {| ev_lat := la; ev_lng := ln; timestamp := now |} ]).
Proof.
  intros Hm [[H1 H2] [H3 H4]]. unfold create_location_proof, require.
  apply Nat.leb_le in Hm. rewrite Hm. cbn.
  apply Z.leb_le in H1, H2, H3, H4. rewrite H1, H2. cbn. rewrite H3, H4. reflexivity.
Qed.

Lemma create_location_proof_inv b now la ln m p evs :
  create_location_proof b now la ln m = Ok (p, evs) ->
  (String.length m <= MAX_MERCHANT_ID_LEN)%nat /\ coords_ok la ln /\
  p = {| lat := la; lng := ln; verified_at := now; bump := b |} /\
  evs = [ {| ev_lat := la; ev_lng := ln; timestamp := now |} ].
Proof.
  unfold create_location_proof, require. cbn. require_cases; try discriminate.
  intros Heq. injection Heq as <- <-.
  apply Nat.leb_le in E.
  apply andb_true_iff in E0 as [H1 H2]. apply andb_true_iff in E1 as [H3 H4].
  apply Z.leb_le in H1, H2, H3, H4.
  unfold coords_ok. repeat split; auto.
Qed.

Lemma close_address_not_merchant fb m b :
  m <> EmptyString ->
  create_program_address [proof_seed] b <> Some (proof_address fb m).
Proof.
  intros Hm Heq. injection Heq as Heq.
  apply (f_equal String.length) in Heq.
  unfold proof_address in Heq. rewrite !length_string_append in Heq.
  destruct m as [|c m']; [contradiction |]. cbn in Heq. lia.
Qed.

(** A [Close] of a merchant's account other than the empty identifier's
    always fails the seeds constraint, whoever signs. *)
Lemma close_rejects_merchant_account fb s m authority :
  m <> EmptyString -> s !! proof_address fb m <> None ->
  process_close s (proof_address fb m) authority = Err ConstraintSeeds.
Proof.
  intros Hm Hs. unfold process_close, CloseLocationProof_try_accounts.
  destruct (s !! proof_address fb m) as [p|]; [| contradiction].
  destruct (create_program_address [proof_seed] (bump p)) as [k|] eqn:Hk; [| reflexivity].
  destruct (String.eqb_spec k (proof_address fb m)) as [->|]; [| reflexivity].
  exfalso. exact (close_address_not_merchant fb m (bump p) Hm Hk).
Qed.

Lemma process_close_authority_irrelevant s k a a' :
  process_close s k a = process_close s k a'.
Proof. reflexivity. Qed.

Lemma process_create_long fb s now payer la ln m :
  (MAX_SEED_LEN < String.length m)%nat ->
  process_create fb s now payer la ln m = Err MaxSeedLengthExceeded.
Proof.
  intros Hm. unfold process_create, CreateLocationProof_try_accounts.
  rewrite find_proof_address_long by exact Hm. reflexivity.
Qed.

Lemma process_create_ok_inv fb s now payer la ln m s' evs :
  process_create fb s now payer la ln m = Ok (s', evs) ->
  (String.length m <= MAX_MERCHANT_ID_LEN)%nat /\ coords_ok la ln /\
  s !! proof_address fb m = None /\
  s' = <[proof_address fb m :=
          {| lat := la; lng := ln; verified_at := now;
             bump := fb (String.append proof_seed m) |}]> s /\
  evs = [ {| ev_lat := la; ev_lng := ln; timestamp := now |} ].
Proof.
  unfold process_create.
  destruct (CreateLocationProof_try_accounts fb s m) as [[key b]|e] eqn:Ht; cbn;
    [| discriminate].
  apply create_try_accounts_ok in Ht as (_ & -> & -> & Hs).
  destruct (create_location_proof _ now la ln m) as [[p evs']|e] eqn:Hh; cbn;
    [| discriminate].
  apply create_location_proof_inv in Hh as (Hm & Hc & -> & ->).
  intros Heq. injection Heq as <- <-. auto 6.
Qed.

Lemma step_in_bounds fb s s' :
  step fb s s' -> map_Forall (fun _ => in_bounds) s -> map_Forall (fun _ => in_bounds) s'.
Proof.
  intros Hstep Hs. destruct Hstep as [s s' evs now payer la ln m Hc | s s' evs k a Hc].
  - apply process_create_ok_inv in Hc as (_ & Hb & _ & -> & _).
    apply map_Forall_insert_2; [exact Hb | exact Hs].
  - unfold process_close in Hc.
    destruct (CloseLocationProof_try_accounts s k) as [p|e]; cbn in Hc; [| discriminate].
    injection Hc as <- _. apply map_Forall_delete. exact Hs.
Qed.

Lemma range_check_spec lo hi x :
  ((lo <=? x) && (x <=? hi)) = true <-> lo <= x <= hi.
Proof. rewrite andb_true_iff, !Z.leb_le. reflexivity. Qed.

Lemma range_check_false lo hi x :
  ~ (lo <= x <= hi) -> ((lo <=? x) && (x <=? hi)) = false.
Proof. intros H. apply not_true_iff_false. rewrite range_check_spec. exact H. Qed.

(** Create on a fresh address of a short enough merchant id is the handler
    followed by the write of the account. *)
Lemma process_create_fresh fb s now payer la ln m :
  (String.length m <= MAX_MERCHANT_ID_LEN)%nat -> s !! proof_address fb m = None ->
  process_create fb s now payer la ln m
  = match create_location_proof (fb (String.append proof_seed m)) now la ln m with
    | Ok (p, evs) => Ok (<[proof_address fb m := p]> s, evs)
    | Err e => Err e
    end.
Proof.
  intros Hm Hs. unfold process_create.
  rewrite create_try_accounts_eq by exact Hm. rewrite Hs. cbn.
  destruct (create_location_proof _ now la ln m) as [[p evs]|e]; reflexivity.
Qed.

(** ** Claims *)

(** Concrete inputs: a bump search that settles on 255, a store with the
    proof of merchant ["a"], one with the proof of the empty identifier,
    and identifiers of 32 and 33 bytes. *)
Definition bump255 : string -> Byte.byte := fun _ => Byte.xff.
Definition store_a : Store := tx_state ∅ (process_create bump255 ∅ 7 1 0 0 "a").
Definition store_empty_id : Store := tx_state ∅ (process_create bump255 ∅ 7 1 0 0 "").
Definition id32 : string := "abcdefghijklmnopqrstuvwxyz012345".
Definition id33 : string := "abcdefghijklmnopqrstuvwxyz0123456".

(** C1 (code_bug).  [CloseLocationProof] derives its address from the seed
    [b"proof"] and the stored bump only, not from the merchant id as
    [CreateLocationProof] does: for merchant ["a"] the two addresses
    differ, Close of the account created for ["a"] fails with
    [ConstraintSeeds] and the record stays; the only account Close can
    match is the one created for the empty identifier. *)
Theorem close_key_differs_from_create_key :
  store_a !! proof_address bump255 "a"
    = Some {| lat := 0; lng := 0; verified_at := 7; bump := Byte.xff |} /\
  create_program_address [proof_seed] Byte.xff <> Some (proof_address bump255 "a") /\
  create_program_address [proof_seed] Byte.xff = Some (proof_address bump255 "") /\
  process_close store_a (proof_address bump255 "a") 2 = Err ConstraintSeeds /\
  tx_state store_a (process_close store_a (proof_address bump255 "a") 2)
    !! proof_address bump255 "a" <> None.
Proof.
  assert (Hs : store_a !! proof_address bump255 "a"
               = Some {| lat := 0; lng := 0; verified_at := 7; bump := Byte.xff |})
    by (vm_compute; reflexivity).
  assert (Hc : process_close store_a (proof_address bump255 "a") 2 = Err ConstraintSeeds).
  { apply close_rejects_merchant_account; [discriminate | rewrite Hs; discriminate]. }
  split; [exact Hs |]. split; [apply close_address_not_merchant; discriminate |].
  split; [reflexivity |]. split; [exact Hc |].
  rewrite Hc. cbn. rewrite Hs. discriminate.
Qed.

(** C2 (code_bug).  Close never compares the signing [authority] with
    anything: its outcome is the same for every signer, and the proof of
    the empty identifier, created with payer 1, is closed by signer 2. *)
Theorem close_by_non_creator_succeeds :
  (forall s k a a', process_close s k a = process_close s k a') /\
  store_empty_id !! proof_address bump255 ""
    = Some {| lat := 0; lng := 0; verified_at := 7; bump := Byte.xff |} /\
  exists s2, process_close store_empty_id (proof_address bump255 "") 2 = Ok (s2, []) /\
             s2 !! proof_address bump255 "" = None.
Proof.
  split; [exact process_close_authority_irrelevant |].
  split; [vm_compute; reflexivity |].
  exists ∅. split; vm_compute; reflexivity.
Qed.

(** C3.  With in-bounds coordinates, a merchant id of at most 32 bytes and
    no live proof at its address, Create succeeds; a second Create for the
    same merchant id, with any arguments, fails with the system program's
    "account already in use" and the stored lat, lng and verified_at are
    the ones of the first Create. *)
Theorem create_twice_already_in_use fb s now payer la ln m :
  (String.length m <= MAX_MERCHANT_ID_LEN)%nat -> coords_ok la ln ->
  s !! proof_address fb m = None ->
  let p := {| lat := la; lng := ln; verified_at := now;
              bump := fb (String.append proof_seed m) |} in
  let s1 := <[proof_address fb m := p]> s in
  process_create fb s now payer la ln m
    = Ok (s1, [ {| ev_lat := la; ev_lng := ln; timestamp := now |} ]) /\
  forall now' payer' la' ln',
    process_create fb s1 now' payer' la' ln' m = Err AccountAlreadyInUse /\
    tx_state s1 (process_create fb s1 now' payer' la' ln' m) !! proof_address fb m = Some p.
Proof.
  intros Hm Hc Hs p s1.
  assert (Hacc : forall st, CreateLocationProof_try_accounts fb st m
                 = match st !! proof_address fb m with
                   | Some _ => Err AccountAlreadyInUse
                   | None => Ok (proof_address fb m, fb (String.append proof_seed m))
                   end) by (intros st; apply create_try_accounts_eq; exact Hm).
  split.
  - unfold process_create. rewrite Hacc, Hs. cbn.
    rewrite create_location_proof_ok by assumption. reflexivity.
  - intros now' payer' la' ln'.
    assert (Hdup : process_create fb s1 now' payer' la' ln' m = Err AccountAlreadyInUse).
    { unfold process_create. rewrite Hacc. unfold s1. rewrite lookup_insert_eq. reflexivity. }
    split; [exact Hdup |]. rewrite Hdup. cbn. unfold s1. apply lookup_insert_eq.
Qed.

Lemma create_twice_already_in_use_witness :
  (String.length id32 <= MAX_MERCHANT_ID_LEN)%nat /\ coords_ok 90000000 (-180000000) /\
  (∅ : Store) !! proof_address bump255 id32 = None /\
  let p := {| lat := 90000000; lng := -180000000; verified_at := 7;
              bump := bump255 (String.append proof_seed id32) |} in
  let s1 := <[proof_address bump255 id32 := p]> (∅ : Store) in
  process_create bump255 ∅ 7 1 90000000 (-180000000) id32
    = Ok (s1, [ {| ev_lat := 90000000; ev_lng := -180000000; timestamp := 7 |} ]) /\
  forall now' payer' la' ln',
    process_create bump255 s1 now' payer' la' ln' id32 = Err AccountAlreadyInUse /\
    tx_state s1 (process_create bump255 s1 now' payer' la' ln' id32)
      !! proof_address bump255 id32 = Some p.
Proof.
  assert (Hm : (String.length id32 <= MAX_MERCHANT_ID_LEN)%nat) by (apply Nat.leb_le; reflexivity).
  assert (Hc : coords_ok 90000000 (-180000000)) by (unfold coords_ok; lia).
  assert (Hs : (∅ : Store) !! proof_address bump255 id32 = None) by reflexivity.
  split; [exact Hm |]. split; [exact Hc |]. split; [exact Hs |].
  exact (create_twice_already_in_use bump255 ∅ 7 1 90000000 (-180000000) id32 Hm Hc Hs).
Defined.

(** C4.  In every state reachable by successful Create and Close
    instructions, every stored proof has lat in [-90e6, 90e6] and lng in
    [-180e6, 180e6]. *)
Theorem reachable_in_bounds fb s :
  reachable fb s -> map_Forall (fun _ => in_bounds) s.
Proof.
  induction 1 as [| s s' _ IH Hstep].
  - apply map_Forall_empty.
  - exact (step_in_bounds fb s s' Hstep IH).
Qed.

Lemma reachable_in_bounds_witness :
  reachable bump255 store_a /\ map_Forall (fun _ => in_bounds) store_a.
Proof.
  assert (H : reachable bump255 store_a).
  { apply (reachable_step bump255 ∅ store_a); [constructor |].
    apply (step_create bump255 ∅ store_a
             [ {| ev_lat := 0; ev_lng := 0; timestamp := 7 |} ] 7 1 0 0 "a").
    vm_compute. reflexivity. }
  split; [exact H | exact (reachable_in_bounds bump255 store_a H)].
Defined.

(** C5 (counterexample).  Create for a merchant id whose proof already
    exists fails with "account already in use" even when the latitude is
    out of range: the [init] constraint runs before the handler's
    checks. *)
Lemma create_existing_bad_latitude :
  process_create bump255 store_a 8 1 90000001 0 "a" = Err AccountAlreadyInUse /\
  process_create bump255 store_a 8 1 90000001 0 "a" <> Err (Custom InvalidLatitude).
Proof. vm_compute. split; [reflexivity | discriminate]. Qed.

Lemma process_create_in_use fb s now payer la ln m :
  (String.length m <= MAX_MERCHANT_ID_LEN)%nat -> s !! proof_address fb m <> None ->
  process_create fb s now payer la ln m = Err AccountAlreadyInUse.
Proof.
  intros Hm Hs. unfold process_create. rewrite create_try_accounts_eq by exact Hm.
  destruct (s !! proof_address fb m); [reflexivity | contradiction].
Qed.

(** C5 (amended).  For a merchant id of at most 32 bytes: when a proof
    already exists at its address, Create fails with "account already in
    use" before any coordinate check; otherwise lat outside [-90e6, 90e6]
    fails with [InvalidLatitude], lat inside and lng outside
    [-180e6, 180e6] fails with [InvalidLongitude], and in-bounds
    coordinates, the boundary values included, are accepted. *)
Theorem create_coordinate_checks fb s now payer la ln m :
  (String.length m <= MAX_MERCHANT_ID_LEN)%nat ->
  (s !! proof_address fb m <> None ->
     process_create fb s now payer la ln m = Err AccountAlreadyInUse) /\
  (s !! proof_address fb m = None ->
    (~ (-90000000 <= la <= 90000000) ->
       process_create fb s now payer la ln m = Err (Custom InvalidLatitude)) /\
    ((-90000000 <= la <= 90000000) -> ~ (-180000000 <= ln <= 180000000) ->
       process_create fb s now payer la ln m = Err (Custom InvalidLongitude)) /\
    (coords_ok la ln -> is_ok (process_create fb s now payer la ln m) = true)).
Proof.
  intros Hm. split; [apply process_create_in_use; exact Hm |].
  intros Hs. rewrite (process_create_fresh fb s now payer la ln m Hm Hs).
  assert (Hm' := Hm). apply Nat.leb_le in Hm'.
  split; [| split].
  - intros Hla. unfold create_location_proof, require. rewrite Hm'. cbn.
    rewrite (range_check_false _ _ la Hla). reflexivity.
  - intros Hla Hln. unfold create_location_proof, require. rewrite Hm'. cbn.
    apply range_check_spec in Hla. rewrite Hla. cbn.
    rewrite (range_check_false _ _ ln Hln). reflexivity.
  - intros Hc. rewrite create_location_proof_ok by assumption. reflexivity.
Qed.

(** The instance at the values of the claim: lat 90,000,001, lng
    -180,000,001 and the boundary values on a free address, and an out of
    range latitude on the address of an existing proof. *)
Lemma create_coordinate_checks_witness :
  (String.length id32 <= MAX_MERCHANT_ID_LEN)%nat /\
  (∅ : Store) !! proof_address bump255 id32 = None /\
  process_create bump255 ∅ 7 1 90000001 0 id32 = Err (Custom InvalidLatitude) /\
  process_create bump255 ∅ 7 1 0 (-180000001) id32 = Err (Custom InvalidLongitude) /\
  is_ok (process_create bump255 ∅ 7 1 90000000 180000000 id32) = true /\
  is_ok (process_create bump255 ∅ 7 1 (-90000000) (-180000000) id32) = true /\
  process_create bump255 store_a 8 1 90000001 0 "a" = Err AccountAlreadyInUse.
Proof.
  assert (Hm : (String.length id32 <= MAX_MERCHANT_ID_LEN)%nat) by (apply Nat.leb_le; reflexivity).
  assert (Hs : (∅ : Store) !! proof_address bump255 id32 = None) by reflexivity.
  assert (Ha : (String.length "a" <= MAX_MERCHANT_ID_LEN)%nat) by (apply Nat.leb_le; reflexivity).
  assert (Hsa : store_a !! proof_address bump255 "a" <> None) by (vm_compute; discriminate).
  split; [exact Hm |]. split; [exact Hs |].
  destruct (create_coordinate_checks bump255 ∅ 7 1 90000001 0 id32 Hm) as [_ H1].
  destruct (create_coordinate_checks bump255 ∅ 7 1 0 (-180000001) id32 Hm) as [_ H2].
  destruct (create_coordinate_checks bump255 ∅ 7 1 90000000 180000000 id32 Hm) as [_ H3].
  destruct (create_coordinate_checks bump255 ∅ 7 1 (-90000000) (-180000000) id32 Hm) as [_ H4].
  destruct (create_coordinate_checks bump255 store_a 8 1 90000001 0 "a" Ha) as [H5 _].
  split; [apply (H1 Hs); lia |].
  split; [apply (H2 Hs); lia |].
  split; [apply (H3 Hs); unfold coords_ok; lia |].
  split; [apply (H4 Hs); unfold coords_ok; lia |].
  exact (H5 Hsa).
Defined.

(** C6 (code_bug).  The accounts validation derives the address from
    [merchant_id] before the handler's [require!] on its length, and the
    derivation refuses a seed over 32 bytes: a 33-byte id fails with
    [MaxSeedLengthExceeded], so [MerchantIdTooLong] is never the outcome
    of Create; a 32-byte id passes. *)
Theorem merchant_id_33_bytes_not_too_long_error :
  String.length id33 = 33%nat /\
  process_create bump255 ∅ 7 1 0 0 id33 = Err MaxSeedLengthExceeded /\
  (forall fb s now payer la ln m,
     process_create fb s now payer la ln m <> Err (Custom MerchantIdTooLong)) /\
  String.length id32 = 32%nat /\
  is_ok (process_create bump255 ∅ 7 1 0 0 id32) = true.
Proof.
  split; [reflexivity |]. split; [reflexivity |]. split; [| split; reflexivity].
  intros fb s now payer la ln m.
  destruct (Nat.le_gt_cases (String.length m) MAX_SEED_LEN) as [Hm | Hm].
  - unfold process_create. rewrite create_try_accounts_eq by exact Hm.
    destruct (s !! proof_address fb m); cbn; [discriminate |].
    unfold create_location_proof, require.
    apply Nat.leb_le in Hm. change MAX_MERCHANT_ID_LEN with MAX_SEED_LEN. rewrite Hm. cbn.
    destruct (_ && _); cbn; [| discriminate].
    destruct (_ && _); cbn; discriminate.
  - rewrite process_create_long by exact Hm. discriminate.
Qed.

(** C7 (counterexample).  Both coordinates out of range on a merchant id
    whose proof exists: the outcome is "account already in use". *)
Lemma create_existing_both_coordinates_bad :
  process_create bump255 store_a 8 1 90000001 (-180000001) "a" = Err AccountAlreadyInUse /\
  process_create bump255 store_a 8 1 90000001 (-180000001) "a" <> Err (Custom InvalidLatitude).
Proof. vm_compute. split; [reflexivity | discriminate]. Qed.

(** C7 (amended).  For a merchant id of at most 32 bytes with both
    coordinates out of range: on a free address the error is
    [InvalidLatitude]; when a proof already exists at its address it is
    "account already in use". *)
Theorem create_both_invalid_latitude_first fb s now payer la ln m :
  (String.length m <= MAX_MERCHANT_ID_LEN)%nat ->
  ~ (-90000000 <= la <= 90000000) -> ~ (-180000000 <= ln <= 180000000) ->
  (s !! proof_address fb m = None ->
     process_create fb s now payer la ln m = Err (Custom InvalidLatitude)) /\
  (s !! proof_address fb m <> None ->
     process_create fb s now payer la ln m = Err AccountAlreadyInUse).
Proof.
  intros Hm Hla _. split; [| apply process_create_in_use; exact Hm].
  intros Hs. rewrite (process_create_fresh fb s now payer la ln m Hm Hs).
  unfold create_location_proof, require. apply Nat.leb_le in Hm. rewrite Hm. cbn.
  rewrite (range_check_false _ _ la Hla). reflexivity.
Qed.

Lemma create_both_invalid_latitude_first_witness :
  (String.length id32 <= MAX_MERCHANT_ID_LEN)%nat /\
  ~ (-90000000 <= 90000001 <= 90000000) /\ ~ (-180000000 <= -180000001 <= 180000000) /\
  process_create bump255 ∅ 7 1 90000001 (-180000001) id32 = Err (Custom InvalidLatitude) /\
  process_create bump255 store_a 7 1 90000001 (-180000001) "a" = Err AccountAlreadyInUse.
Proof.
  assert (Hm : (String.length id32 <= MAX_MERCHANT_ID_LEN)%nat) by (apply Nat.leb_le; reflexivity).
  assert (Ha : (String.length "a" <= MAX_MERCHANT_ID_LEN)%nat) by (apply Nat.leb_le; reflexivity).
  assert (Hs : (∅ : Store) !! proof_address bump255 id32 = None) by reflexivity.
  assert (Hsa : store_a !! proof_address bump255 "a" <> None) by (vm_compute; discriminate).
  assert (H1 : ~ (-90000000 <= 90000001 <= 90000000)) by lia.
  assert (H2 : ~ (-180000000 <= -180000001 <= 180000000)) by lia.
  split; [exact Hm |]. split; [exact H1 |]. split; [exact H2 |].
  split.
  - exact (proj1 (create_both_invalid_latitude_first bump255 ∅ 7 1 _ _ id32 Hm H1 H2) Hs).
  - exact (proj2 (create_both_invalid_latitude_first bump255 store_a 7 1 _ _ "a" Ha H1 H2) Hsa).
Defined.

(** C8 (code_bug).  The length check on [merchant_id] sits in the handler,
    after the accounts validation has already derived the address from the
    id: a 33-byte id is rejected by that derivation and the call never ends
    in [MerchantIdTooLong] (the defect of C6). *)
Lemma create_long_id_derivation_first :
  find_program_address bump255 [proof_seed; id33] = Err MaxSeedLengthExceeded /\
  process_create bump255 ∅ 7 1 0 0 id33 = Err MaxSeedLengthExceeded /\
  process_create bump255 ∅ 7 1 0 0 id33 <> Err (Custom MerchantIdTooLong).
Proof. vm_compute. split; [reflexivity | split; [reflexivity | discriminate]]. Qed.


(** C9.  Create leaves an event in the ledger exactly when it succeeds;
    the event is the single [{lat, lng, timestamp}] whose fields are the
    lat, lng and verified_at of the proof it stored at a previously free
    address; Close leaves none. *)
Theorem create_event_matches_record fb s now payer la ln m :
  (tx_events (process_create fb s now payer la ln m) <> []
     <-> is_ok (process_create fb s now payer la ln m) = true) /\
  (forall s' evs, process_create fb s now payer la ln m = Ok (s', evs) ->
     exists key p,
       s !! key = None /\ s' !! key = Some p /\
       evs = [ {| ev_lat := lat p; ev_lng := lng p; timestamp := verified_at p |} ] /\
       lat p = la /\ lng p = ln /\ verified_at p = now) /\
  (forall k authority, tx_events (process_close s k authority) = []).
Proof.
  split; [| split].
  - destruct (process_create fb s now payer la ln m) as [[s' evs]|e] eqn:Hc; cbn.
    + apply process_create_ok_inv in Hc as (_ & _ & _ & _ & ->).
      split; [reflexivity | discriminate].
    + split; [contradiction | discriminate].
  - intros s' evs Hc.
    apply process_create_ok_inv in Hc as (_ & _ & Hs & -> & ->).
    eexists _, _. split; [exact Hs |]. split; [apply lookup_insert_eq |].
    cbn. auto.
  - intros k authority. unfold process_close.
    destruct (CloseLocationProof_try_accounts s k); reflexivity.
Qed.

(** C10.  The handler checks the length of [merchant_id] first: an id over
    32 bytes is [MerchantIdTooLong] whatever the coordinates. *)
Theorem handler_long_id_first b now la ln m :
  (MAX_MERCHANT_ID_LEN < String.length m)%nat ->
  create_location_proof b now la ln m = Err (Custom MerchantIdTooLong).
Proof.
  intros Hm. apply Nat.leb_gt in Hm.
  unfold create_location_proof, require. rewrite Hm. reflexivity.
Qed.

Lemma handler_long_id_first_witness :
  (MAX_MERCHANT_ID_LEN < String.length id33)%nat /\
  create_location_proof Byte.xff 7 90000001 (-180000001) id33 = Err (Custom MerchantIdTooLong).
Proof.
  assert (Hm : (MAX_MERCHANT_ID_LEN < String.length id33)%nat) by (apply Nat.leb_gt; reflexivity).
  split; [exact Hm | exact (handler_long_id_first Byte.xff 7 90000001 (-180000001) id33 Hm)].
Defined.



(** ** Further properties of the program *)

Lemma create_program_address_proof_seed b :
  create_program_address [proof_seed] b = Some (String.append proof_seed (byte_string b)).
Proof. reflexivity. Qed.

(** X1: every failing Create fails for exactly one of the reasons of its
    checks, in their order: seed too long at derivation, address in use,
    latitude, longitude. *)
Theorem create_error_cases fb s now payer la ln m e :
  process_create fb s now payer la ln m = Err e -> create_error_cause fb s la ln m e.
Proof.
  unfold create_error_cause.
  destruct (Nat.le_gt_cases (String.length m) MAX_SEED_LEN) as [Hm | Hm].
  - destruct (s !! proof_address fb m) as [p|] eqn:Hs.
    + unfold process_create. rewrite create_try_accounts_eq by exact Hm. rewrite Hs. cbn.
      intros [= <-]. right; left. split; [reflexivity | split; [exact Hm | discriminate]].
    + rewrite (process_create_fresh fb s now payer la ln m Hm Hs).
      unfold create_location_proof, require.
      assert (Hm' := Hm). apply Nat.leb_le in Hm'. change MAX_MERCHANT_ID_LEN with MAX_SEED_LEN.
      rewrite Hm'. cbn.
      destruct ((-90000000 <=? la) && (la <=? 90000000)) eqn:E1; cbn.
      * destruct ((-180000000 <=? ln) && (ln <=? 180000000)) eqn:E2; cbn; [discriminate |].
        intros [= <-]. right; right; right.
        apply range_check_spec in E1. apply not_true_iff_false in E2.
        rewrite range_check_spec in E2. auto.
      * intros [= <-]. right; right; left.
        apply not_true_iff_false in E1. rewrite range_check_spec in E1. auto.
  - rewrite process_create_long by exact Hm. intros [= <-]. left. auto.
Qed.

Lemma create_error_cases_witness :
  process_create bump255 store_a 8 1 0 (-180000001) "b" = Err (Custom InvalidLongitude) /\
  create_error_cause bump255 store_a 0 (-180000001) "b" (Custom InvalidLongitude).
Proof.
  assert (H : process_create bump255 store_a 8 1 0 (-180000001) "b" = Err (Custom InvalidLongitude))
    by (vm_compute; reflexivity).
  split; [exact H | exact (create_error_cases bump255 store_a 8 1 0 (-180000001) "b" _ H)].
Defined.

(** Characterisation of a successful Close: a Close succeeds exactly on an existing proof whose address is the
    seed [b"proof"] followed by the proof's own bump; it then deletes that
    one account and emits nothing. *)
Theorem close_success_iff s k authority s' evs :
  process_close s k authority = Ok (s', evs) <->
  exists p, s !! k = Some p /\ k = String.append proof_seed (byte_string (bump p)) /\
            s' = delete k s /\ evs = [].
Proof.
  unfold process_close, CloseLocationProof_try_accounts.
  destruct (s !! k) as [p|].
  - rewrite create_program_address_proof_seed.
    destruct (String.eqb (String.append proof_seed (byte_string (bump p))) k) eqn:Hk;
      unfold bind; cbv beta iota.
    + apply String.eqb_eq in Hk. split.
      * intros [= <- <-]. exists p. auto.
      * intros (p' & [= <-] & _ & -> & ->). reflexivity.
    + apply String.eqb_neq in Hk. split; [discriminate |].
      intros (p' & [= <-] & Hk' & _). congruence.
  - cbn. split; [discriminate | intros (p & [=] & _)].
Qed.


Lemma append_cancel_same_length (a1 a2 t1 t2 : string) :
  String.length a1 = String.length a2 -> String.append a1 t1 = String.append a2 t2 ->
  a1 = a2.
Proof.
  revert a2. induction a1 as [|c a1 IH]; intros [|c' a2] Hl Heq; try discriminate; [reflexivity |].
  cbn in Hl, Heq. injection Hl as Hl. injection Heq as -> Heq.
  f_equal. exact (IH a2 Hl Heq).
Qed.

(** Distinct merchant ids get distinct proof addresses. *)
Lemma proof_address_inj fb m1 m2 :
  proof_address fb m1 = proof_address fb m2 -> m1 = m2.
Proof.
  unfold proof_address. intros Heq.
  assert (Hl := f_equal String.length Heq). rewrite !length_string_append in Hl. cbn in Hl.
  unfold proof_seed in Heq. cbn in Heq. injection Heq as Heq.
  replace (String.append "" m1) with m1 in Heq by reflexivity.
  replace (String.append "" m2) with m2 in Heq by reflexivity.
  exact (append_cancel_same_length m1 m2 _ _ ltac:(lia) Heq).
Qed.

(** X4: a successful Create writes only the account at the merchant's own
    address; every other account, in particular every other merchant's
    proof, is left as it was. *)
Theorem create_frame fb s now payer la ln m s' evs :
  process_create fb s now payer la ln m = Ok (s', evs) ->
  (forall k, k <> proof_address fb m -> s' !! k = s !! k) /\
  (forall m2, m2 <> m -> s' !! proof_address fb m2 = s !! proof_address fb m2).
Proof.
  intros Hc. apply process_create_ok_inv in Hc as (_ & _ & _ & -> & _).
  assert (Hk : forall k, k <> proof_address fb m ->
            <[proof_address fb m := {| lat := la; lng := ln; verified_at := now;
                                       bump := fb (String.append proof_seed m) |}]> s !! k = s !! k).
  { intros k Hk. apply lookup_insert_ne. congruence. }
  split; [exact Hk |].
  intros m2 Hm2. apply Hk. intros Heq. apply Hm2. apply proof_address_inj with fb. exact Heq.
Qed.

Lemma create_frame_witness :
  process_create bump255 store_a 8 1 1 1 "b"
    = Ok (<[proof_address bump255 "b" :=
              {| lat := 1; lng := 1; verified_at := 8; bump := Byte.xff |}]> store_a,
          [ {| ev_lat := 1; ev_lng := 1; timestamp := 8 |} ]) /\
  (forall k, k <> proof_address bump255 "b" ->
     (<[proof_address bump255 "b" :=
          {| lat := 1; lng := 1; verified_at := 8; bump := Byte.xff |}]> store_a) !! k
     = store_a !! k) /\
  (forall m2, m2 <> "b" ->
     (<[proof_address bump255 "b" :=
          {| lat := 1; lng := 1; verified_at := 8; bump := Byte.xff |}]> store_a)
       !! proof_address bump255 m2 = store_a !! proof_address bump255 m2).
Proof.
  assert (H : process_create bump255 store_a 8 1 1 1 "b"
    = Ok (<[proof_address bump255 "b" :=
              {| lat := 1; lng := 1; verified_at := 8; bump := Byte.xff |}]> store_a,
          [ {| ev_lat := 1; ev_lng := 1; timestamp := 8 |} ])) by (vm_compute; reflexivity).
  split; [exact H | exact (create_frame bump255 store_a 8 1 1 1 "b" _ _ H)].
Defined.

Lemma step_records_at_derived_address fb s s' :
  step fb s s' -> map_Forall (record_at_derived_address fb) s ->
  map_Forall (record_at_derived_address fb) s'.
Proof.
  intros Hstep Hs. destruct Hstep as [s s' evs now payer la ln m Hc | s s' evs k a Hc].
  - apply process_create_ok_inv in Hc as (Hm & _ & _ & -> & _).
    apply map_Forall_insert_2; [| exact Hs].
    exists m. split; [exact Hm |]. split; reflexivity.
  - apply close_success_iff in Hc as (p & _ & _ & -> & _).
    apply map_Forall_delete. exact Hs.
Qed.

(** X5: in every reachable state each stored proof sits at the address
    [CreateLocationProof] derives for some merchant id of at most 32 bytes,
    and its [bump] is the bump of that derivation. *)
Theorem reachable_records_at_derived_address fb s :
  reachable fb s -> map_Forall (record_at_derived_address fb) s.
Proof.
  induction 1 as [| s s' _ IH Hstep].
  - apply map_Forall_empty.
  - exact (step_records_at_derived_address fb s s' Hstep IH).
Qed.

Lemma reachable_store_empty_id : reachable bump255 store_empty_id.
Proof.
  apply (reachable_step bump255 ∅ store_empty_id); [constructor |].
  apply (step_create bump255 ∅ store_empty_id
           [ {| ev_lat := 0; ev_lng := 0; timestamp := 7 |} ] 7 1 0 0 "").
  vm_compute. reflexivity.
Qed.

Lemma reachable_records_at_derived_address_witness :
  reachable bump255 store_empty_id /\
  map_Forall (record_at_derived_address bump255) store_empty_id.
Proof.
  split; [exact reachable_store_empty_id |].
  exact (reachable_records_at_derived_address bump255 store_empty_id reachable_store_empty_id).
Defined.

(** X6: in a reachable state, a Close can only succeed on the proof of the
    empty merchant id. *)
Theorem reachable_close_only_empty_id fb s k authority s' evs :
  reachable fb s -> process_close s k authority = Ok (s', evs) ->
  k = proof_address fb EmptyString.
Proof.
  intros Hr Hc. apply close_success_iff in Hc as (p & Hp & Hk & _ & _).
  destruct (reachable_records_at_derived_address fb s Hr k p Hp) as (m & _ & Hkm & _).
  destruct m as [|c m'].
  - exact Hkm.
  - exfalso. apply (close_address_not_merchant fb (String c m') (bump p)); [discriminate |].
    rewrite create_program_address_proof_seed, <- Hk, Hkm. reflexivity.
Qed.

Lemma reachable_close_only_empty_id_witness :
  reachable bump255 store_empty_id /\
  process_close store_empty_id (proof_address bump255 "") 2 = Ok (∅, []) /\
  proof_address bump255 "" = proof_address bump255 EmptyString.
Proof.
  assert (Hc : process_close store_empty_id (proof_address bump255 "") 2 = Ok (∅, []))
    by (vm_compute; reflexivity).
  split; [exact reachable_store_empty_id |]. split; [exact Hc |].
  exact (reachable_close_only_empty_id bump255 store_empty_id _ 2 ∅ [] reachable_store_empty_id Hc).
Defined.

(** X7: after a successful Close in a reachable state the slot is free
    again: a Create for the empty merchant id with in-bounds coordinates
    succeeds. *)
Theorem close_then_create_again fb s k authority s' evs now payer la ln :
  reachable fb s -> process_close s k authority = Ok (s', evs) -> coords_ok la ln ->
  is_ok (process_create fb s' now payer la ln EmptyString) = true.
Proof.
  intros Hr Hc Hco.
  assert (Hk := reachable_close_only_empty_id fb s k authority s' evs Hr Hc).
  apply close_success_iff in Hc as (p & _ & _ & -> & _).
  assert (Hm : (String.length EmptyString <= MAX_MERCHANT_ID_LEN)%nat) by (cbn; lia).
  assert (Hs : delete k s !! proof_address fb EmptyString = None)
    by (rewrite <- Hk; apply lookup_delete_eq).
  rewrite (process_create_fresh fb _ now payer la ln EmptyString Hm Hs).
  rewrite create_location_proof_ok by assumption. reflexivity.
Qed.

Lemma close_then_create_again_witness :
  reachable bump255 store_empty_id /\
  process_close store_empty_id (proof_address bump255 "") 2 = Ok (∅, []) /\
  coords_ok 5 6 /\
  is_ok (process_create bump255 ∅ 9 3 5 6 EmptyString) = true.
Proof.
  assert (Hc : process_close store_empty_id (proof_address bump255 "") 2 = Ok (∅, []))
    by (vm_compute; reflexivity).
  assert (Hco : coords_ok 5 6) by (unfold coords_ok; lia).
  split; [exact reachable_store_empty_id |]. split; [exact Hc |]. split; [exact Hco |].
  exact (close_then_create_again bump255 store_empty_id _ 2 ∅ [] 9 3 5 6
           reachable_store_empty_id Hc Hco).
Defined.

Lemma le_bytes_length n x : length (le_bytes n x) = n.
Proof. revert x. induction n as [|n IH]; intros x; cbn; [reflexivity | rewrite IH; reflexivity]. Qed.

Lemma le_value_le_bytes n x : le_value (le_bytes n x) = x mod 2 ^ (8 * Z.of_nat n).
Proof.
  revert x. induction n as [|n IH]; intros x.
  - cbn. rewrite Z.mod_1_r. reflexivity.
  - cbn [le_bytes le_value]. rewrite IH, Z.shiftr_div_pow2 by lia.
    replace (Z.land x 255) with (x mod 2 ^ 8)
      by (rewrite <- Z.land_ones by lia; reflexivity).
    replace (8 * Z.of_nat (S n)) with (8 + 8 * Z.of_nat n) by lia.
    rewrite Z.pow_add_r by lia.
    rewrite Z.rem_mul_r; [reflexivity | lia |].
    apply Z.pow_pos_nonneg; lia.
Qed.

Lemma i64_roundtrip x : is_i64 x -> i64_from_le (i64_to_le x) = x.
Proof.
  unfold is_i64, i64_from_le, i64_to_le. intros Hx.
  rewrite le_value_le_bytes. change (8 * Z.of_nat 8) with 64.
  destruct (Z_le_gt_dec 0 x) as [Hpos | Hneg].
  - rewrite Z.mod_small by lia.
    replace (x <? 2 ^ 63) with true by (symmetry; apply Z.ltb_lt; lia). reflexivity.
  - replace (x mod 2 ^ 64) with (x + 2 ^ 64)
      by (apply Z.mod_unique with (-1); lia).
    replace (x + 2 ^ 64 <? 2 ^ 63) with false by (symmetry; apply Z.ltb_ge; lia). lia.
Qed.

Lemma firstn_prefix {A} (l r : list A) : firstn (length l) (l ++ r) = l.
Proof. induction l as [|a l IH]; cbn; [reflexivity | rewrite IH; reflexivity]. Qed.

Lemma skipn_prefix {A} (l r : list A) : skipn (length l) (l ++ r) = r.
Proof. induction l as [|a l IH]; cbn; [reflexivity | exact IH]. Qed.

Lemma read_i64_i64_to_le x r : is_i64 x -> read_i64 (i64_to_le x ++ r) = Some (x, r).
Proof.
  intros Hx. unfold read_i64.
  assert (Hl : length (i64_to_le x) = 8%nat) by apply le_bytes_length.
  rewrite length_app, Hl. cbn [Nat.ltb Nat.leb].
  rewrite <- Hl, firstn_prefix, skipn_prefix, i64_roundtrip by exact Hx. reflexivity.
Qed.

Lemma read_u8_byte b r : read_u8 (Z.of_N (Byte.to_N b) :: r) = Some (b, r).
Proof. unfold read_u8. rewrite N2Z.id, Byte.of_to_N. reflexivity. Qed.

(** X8: the account data written for a proof is exactly the [space] that
    [CreateLocationProof] allocates: 8 discriminator bytes, three [i64]
    and one [u8], 33 bytes. *)
Theorem serialized_size_is_space disc p :
  length disc = 8%nat -> length (serialize_LocationProof disc p) = LocationProof_space.
Proof.
  intros Hd. unfold serialize_LocationProof, i64_to_le.
  rewrite !length_app, !le_bytes_length, Hd. reflexivity.
Qed.

Lemma serialized_size_is_space_witness :
  length [1; 2; 3; 4; 5; 6; 7; 8] = 8%nat /\
  length (serialize_LocationProof [1; 2; 3; 4; 5; 6; 7; 8]
            {| lat := -1; lng := 180000000; verified_at := 1700000000; bump := Byte.xfe |})
  = LocationProof_space.
Proof.
  split; [reflexivity |].
  exact (serialized_size_is_space [1; 2; 3; 4; 5; 6; 7; 8] _ eq_refl).
Defined.

(** X9: reading back the account data of a proof gives the same proof, for
    fields that are [i64] values. *)
Theorem deserialize_serialize disc p :
  length disc = 8%nat -> is_i64 (lat p) -> is_i64 (lng p) -> is_i64 (verified_at p) ->
  deserialize_LocationProof disc (serialize_LocationProof disc p) = inr p.
Proof.
  intros Hd Hla Hln Hts. unfold deserialize_LocationProof, serialize_LocationProof.
  set (rest := i64_to_le (lat p) ++ _).
  assert (Hlt : Nat.ltb (length (disc ++ rest)) 8 = false)
    by (apply Nat.ltb_ge; rewrite length_app; lia).
  assert (Hf : firstn 8 (disc ++ rest) = disc) by (rewrite <- Hd; apply firstn_prefix).
  assert (Hs : skipn 8 (disc ++ rest) = rest) by (rewrite <- Hd; apply skipn_prefix).
  rewrite Hlt, Hf, bool_decide_eq_true_2 by reflexivity. cbn [negb].
  rewrite Hs. unfold rest.
  rewrite (read_i64_i64_to_le _ _ Hla), (read_i64_i64_to_le _ _ Hln), (read_i64_i64_to_le _ _ Hts).
  rewrite read_u8_byte. destruct p. reflexivity.
Qed.

Lemma deserialize_serialize_witness :
  deserialize_LocationProof [1; 2; 3; 4; 5; 6; 7; 8]
    (serialize_LocationProof [1; 2; 3; 4; 5; 6; 7; 8]
       {| lat := -90000000; lng := 180000000; verified_at := 1700000000; bump := Byte.xfe |})
  = inr {| lat := -90000000; lng := 180000000; verified_at := 1700000000; bump := Byte.xfe |}.
Proof.
  apply deserialize_serialize; [reflexivity | | |]; unfold is_i64; cbn; lia.
Defined.
